(** * Route, group and resource middleware decorators

    A shallow embedding of the three decorator factories [GroupMiddleware],
    [RouteMiddleware] and [ResourceMiddleware], together with the part of the
    reflection metadata store they read and write.

    The decorators fetch an object from the metadata store (or create a fresh
    one), mutate it in place and define it again on the decorated class.  The
    objects are JavaScript references: a class without metadata of its own
    reads the object of the nearest decorated superclass, mutates that very
    object, and then holds a second reference to it.  The store is therefore
    modelled as a heap of objects plus a table of references. *)

From stdpp Require Import gmap strings list fin_maps.

Open Scope string_scope.
Open Scope list_scope.

(** ** Middleware payloads *)

(** A middleware handler is opaque to the decorators: either a plain function
    or a parsed named middleware.  Handlers are told apart by an identifier. *)
Inductive MiddlewareHandler :=
  | MiddlewareFn (fn : nat)
  | ParsedNamedMiddleware (name : string).

(** [OneOrMore<T> = T | T[]] *)
Inductive OneOrMore (T : Type) :=
  | One (x : T)
  | More (xs : list T).
Arguments One {T} x.
Arguments More {T} xs.

(** [Array.isArray] on a [OneOrMore] value. *)
Definition isArray {T} (v : OneOrMore T) : bool :=
  match v with One _ => false | More _ => true end.

Definition MiddlewareSpec := OneOrMore MiddlewareHandler.

(** The [actions] argument of [ResourceMiddleware]: at run time a string (an
    action name or ['*']) or an array of strings.  The type annotation
    [ResourceActionNames] is erased; any string can reach the decorator. *)
Inductive ActionsArg :=
  | ActionsString (s : string)
  | ActionsArray (names : list string).

Definition wildcard : ActionsArg := ActionsString "*".

(** ** Objects kept in the metadata store *)

(** [routes[key]]: the record of one method.  The decorators of this file
    only read and write its [middleware] property; [others] stands for the
    properties written by other decorators, which are carried along. *)
Record RouteEntry := {
  middleware : option (list MiddlewareSpec);
  others : list (string * string)
}.

(** The object literal [{}] stored by [routes[key] = {}]. *)
Definition empty_entry : RouteEntry := {| middleware := None; others := [] |}.

(** The object stored under [REFLECT_ROUTES_KEY], used as a map from method
    keys to route entries.  [routes[key]] is read on the own properties of
    the object: method keys are taken to differ from the property names that
    every object inherits ([toString], [valueOf], ...). *)
Abbreviation Routes := (gmap string RouteEntry).

(** The record [{ actions, middleware }]; its [middleware] property is the
    field [resource_middleware]. *)
Record ResourceRecord := {
  actions : ActionsArg;
  resource_middleware : MiddlewareSpec
}.

(** ** Classes *)

(** The result of [typeof]. *)
Inductive JsTypeof :=
  | TyUndefined | TyObject | TyBoolean | TyNumber | TyBigint
  | TyString | TySymbol | TyFunction.

(** A class declaration: its name and the own string-keyed properties of its
    prototype object, in property order, each with the [typeof] of its
    value. *)
Record ClassDecl := {
  class_name : string;
  class_prototype : list (string * JsTypeof)
}.

(** A class is a declaration with or without a superclass. *)
Inductive Class :=
  | BaseClass (d : ClassDecl)
  | Extends (d : ClassDecl) (super : Class).

Definition decl (C : Class) : ClassDecl :=
  match C with BaseClass d | Extends d _ => d end.

(** [target.prototype] *)
Definition prototype (C : Class) : list (string * JsTypeof) :=
  class_prototype (decl C).

(** [Object.getOwnPropertyNames(o)] *)
Definition getOwnPropertyNames (o : list (string * JsTypeof)) : list string :=
  o.*1.

(** [typeof o[key]] for an own property; a missing property is [undefined]. *)
Fixpoint typeof_prop (o : list (string * JsTypeof)) (key : string) : JsTypeof :=
  match o with
  | [] => TyUndefined
  | (k, t) :: o' => if decide (k = key) then t else typeof_prop o' key
  end.

Global Instance MiddlewareHandler_eq_dec : EqDecision MiddlewareHandler.
Proof. solve_decision. Defined.
Global Instance OneOrMore_eq_dec {T} `{EqDecision T} : EqDecision (OneOrMore T).
Proof. solve_decision. Defined.
Global Instance ActionsArg_eq_dec : EqDecision ActionsArg.
Proof. solve_decision. Defined.
Global Instance JsTypeof_eq_dec : EqDecision JsTypeof.
Proof. solve_decision. Defined.
Global Instance ClassDecl_eq_dec : EqDecision ClassDecl.
Proof. solve_decision. Defined.
Global Instance Class_eq_dec : EqDecision Class.
Proof. solve_decision. Defined.

(** Classes are keys of the reference table: they are countable through
    their chain of declarations. *)
Definition JsTypeof_to_nat (t : JsTypeof) : nat :=
  match t with
  | TyUndefined => 0 | TyObject => 1 | TyBoolean => 2 | TyNumber => 3
  | TyBigint => 4 | TyString => 5 | TySymbol => 6 | TyFunction => 7
  end.

Definition JsTypeof_of_nat (n : nat) : option JsTypeof :=
  match n with
  | 0 => Some TyUndefined | 1 => Some TyObject | 2 => Some TyBoolean
  | 3 => Some TyNumber | 4 => Some TyBigint | 5 => Some TyString
  | 6 => Some TySymbol | 7 => Some TyFunction | _ => None
  end.

Global Program Instance JsTypeof_countable : Countable JsTypeof :=
  inj_countable JsTypeof_to_nat JsTypeof_of_nat _.
Next Obligation. by intros []. Qed.

Global Program Instance ClassDecl_countable : Countable ClassDecl :=
  inj_countable' (λ d, (class_name d, class_prototype d))
                 (λ p, {| class_name := p.1; class_prototype := p.2 |}) _.
Next Obligation. by intros []. Qed.

Fixpoint class_chain (C : Class) : list ClassDecl :=
  match C with
  | BaseClass d => [d]
  | Extends d super => d :: class_chain super
  end.

Fixpoint class_of_chain (l : list ClassDecl) : option Class :=
  match l with
  | [] => None
  | [d] => Some (BaseClass d)
  | d :: l' => Extends d <$> class_of_chain l'
  end.

Global Program Instance Class_countable : Countable Class :=
  inj_countable class_chain class_of_chain _.
Next Obligation.
  intros C. induction C as [d|d super IH]; [done|].
  simpl. rewrite IH. by destruct super.
Qed.

(** ** The metadata store *)

(** The metadata of one metadata key: the heap of objects defined under that
    key, addressed by position, and for each class the reference it holds as
    its own metadata. *)
Record Store (A : Type) := {
  heap : list A;
  own : gmap Class nat
}.
Arguments heap {A} s.
Arguments own {A} s.

Definition empty_store {A} : Store A := {| heap := []; own := ∅ |}.

Section store.
Context {A : Type}.

(** [Reflect.getMetadata(key, target)]: the own metadata of [target], else
    that of the nearest class up its prototype chain, which for a class
    constructor is the chain of its superclasses. *)
Fixpoint getMetadata (s : Store A) (target : Class) : option nat :=
  match own s !! target with
  | Some r => Some r
  | None =>
      match target with
      | BaseClass _ => None
      | Extends _ super => getMetadata s super
      end
  end.

(** [Reflect.defineMetadata(key, value, target)] for a [value] that is a
    reference. *)
Definition defineMetadata (r : nat) (target : Class) (s : Store A) : Store A :=
  {| heap := heap s; own := <[target := r]> (own s) |}.

(** Evaluation of a fresh object literal. *)
Definition new_object (o : A) (s : Store A) : nat * Store A :=
  (length (heap s), {| heap := heap s ++ [o]; own := own s |}).

(** [Reflect.getMetadata(key, target) || o] *)
Definition getMetadata_or (o : A) (target : Class) (s : Store A) : nat * Store A :=
  match getMetadata s target with
  | Some r => (r, s)
  | None => new_object o s
  end.

(** In-place mutation of the object behind reference [r]. *)
Definition mutate (r : nat) (f : A → A) (s : Store A) : Store A :=
  {| heap := alter f r (heap s); own := own s |}.

(** The object a class reads from the store. *)
Definition object_of (s : Store A) (C : Class) : option A :=
  r ← getMetadata s C; heap s !! r.

(** Every reference of the table points into the heap. *)
Definition wf_store (s : Store A) : Prop :=
  map_Forall (λ _ r, r < length (heap s)) (own s).

Global Instance wf_store_dec s : Decision (wf_store s).
Proof. unfold wf_store. apply _. Defined.
End store.

(** The two metadata keys of [constants.js], each with its store. *)
Record Metadata := {
  REFLECT_ROUTES_KEY : Store Routes;
  REFLECT_RESOURCE_MIDDLEWARE_KEY : Store (list ResourceRecord)
}.

Definition no_metadata : Metadata :=
  {| REFLECT_ROUTES_KEY := empty_store;
     REFLECT_RESOURCE_MIDDLEWARE_KEY := empty_store |}.

Definition wf (st : Metadata) : Prop :=
  wf_store (REFLECT_ROUTES_KEY st) ∧ wf_store (REFLECT_RESOURCE_MIDDLEWARE_KEY st).

Global Instance wf_dec st : Decision (wf st).
Proof. unfold wf. apply _. Defined.

(** ** The decorators *)

(** The body shared by [GroupMiddleware] and [RouteMiddleware]:
<<
    if (!routes[key]) { routes[key] = {} }
    if (!routes[key].middleware) { routes[key].middleware = [middleware] }
    else { routes[key].middleware.push(middleware) }
>> *)
Definition push_middleware (mw : MiddlewareSpec) (key : string)
    (routes : Routes) : Routes :=
  let routes :=
    match routes !! key with
    | None => <[key := empty_entry]> routes
    | Some _ => routes
    end in
  alter (λ e,
    match middleware e with
    | None => {| middleware := Some [mw]; others := others e |}
    | Some l => {| middleware := Some (l ++ [mw]); others := others e |}
    end) key routes.

(** The test [key !== 'constructor' && typeof target.prototype[key] === 'function']. *)
Definition is_route_method (target : Class) (key : string) : bool :=
  bool_decide (key ≠ "constructor")
  && bool_decide (typeof_prop (prototype target) key = TyFunction).

(** The loop [for (const key of keys) { if (...) { ... } }], acting on the
    object [routes]. *)
Definition loop_over (mw : MiddlewareSpec) (target : Class)
    (keys : list string) (routes : Routes) : Routes :=
  fold_left
    (λ routes key,
       if is_route_method target key then push_middleware mw key routes
       else routes) keys routes.

(** The loop of [GroupMiddleware]: over the own property names of the
    prototype. *)
Definition group_loop (mw : MiddlewareSpec) (target : Class)
    (routes : Routes) : Routes :=
  loop_over mw target (getOwnPropertyNames (prototype target)) routes.

Definition GroupMiddleware (mw : MiddlewareSpec) (target : Class)
    (st : Metadata) : Metadata :=
  let '(routes, s) := getMetadata_or ∅ target (REFLECT_ROUTES_KEY st) in
  let s := mutate routes (group_loop mw target) s in
  {| REFLECT_ROUTES_KEY := defineMetadata routes target s;
     REFLECT_RESOURCE_MIDDLEWARE_KEY := REFLECT_RESOURCE_MIDDLEWARE_KEY st |}.

(** [RouteMiddleware(middleware)(target, key)], where [target] is the
    prototype of the class that declares the method; the argument
    [constructor] is [target.constructor], that class. *)
Definition RouteMiddleware (mw : MiddlewareSpec) (constructor : Class)
    (key : string) (st : Metadata) : Metadata :=
  let '(routes, s) := getMetadata_or ∅ constructor (REFLECT_ROUTES_KEY st) in
  let s := mutate routes (push_middleware mw key) s in
  {| REFLECT_ROUTES_KEY := defineMetadata routes constructor s;
     REFLECT_RESOURCE_MIDDLEWARE_KEY := REFLECT_RESOURCE_MIDDLEWARE_KEY st |}.

Definition ResourceMiddleware (acts : ActionsArg) (mw : MiddlewareSpec)
    (target : Class) (st : Metadata) : Metadata :=
  let '(resourceMiddleware, s) :=
    getMetadata_or [] target (REFLECT_RESOURCE_MIDDLEWARE_KEY st) in
  let s :=
    mutate resourceMiddleware
      (λ l, l ++ [{| actions := acts; resource_middleware := mw |}]) s in
  {| REFLECT_ROUTES_KEY := REFLECT_ROUTES_KEY st;
     REFLECT_RESOURCE_MIDDLEWARE_KEY := defineMetadata resourceMiddleware target s |}.

(** ** What a reader of the store sees *)

Definition routes_of (st : Metadata) (C : Class) : option Routes :=
  object_of (REFLECT_ROUTES_KEY st) C.

Definition entry_of (st : Metadata) (C : Class) (key : string) : option RouteEntry :=
  routes ← routes_of st C; routes !! key.

Definition middleware_of (st : Metadata) (C : Class) (key : string)
    : option (list MiddlewareSpec) :=
  e ← entry_of st C key; middleware e.

Definition middleware_list (st : Metadata) (C : Class) (key : string)
    : list MiddlewareSpec :=
  default [] (middleware_of st C key).

Definition resource_of (st : Metadata) (C : Class) : option (list ResourceRecord) :=
  object_of (REFLECT_RESOURCE_MIDDLEWARE_KEY st) C.

Definition resource_list (st : Metadata) (C : Class) : list ResourceRecord :=
  default [] (resource_of st C).

(** The annotation pattern common to the three decorators: fetch or create,
    mutate in place, define again. *)
Definition annotate {A} (o : A) (f : A → A) (target : Class) (s : Store A)
    : Store A :=
  let '(r, s1) := getMetadata_or o target s in
  defineMetadata r target (mutate r f s1).

(** The middleware list a routes object holds for a key. *)
Definition groups (routes : Routes) (key : string) : list MiddlewareSpec :=
  default [] (e ← routes !! key; middleware e).

(** ** Decorator applications *)

(** One application of a decorator of this file. *)
Inductive Decorator :=
  | ClassGroup (mw : MiddlewareSpec) (target : Class)
  | MethodRoute (mw : MiddlewareSpec) (constructor : Class) (key : string)
  | ClassResource (acts : ActionsArg) (mw : MiddlewareSpec) (target : Class).

Definition decorate (d : Decorator) (st : Metadata) : Metadata :=
  match d with
  | ClassGroup mw target => GroupMiddleware mw target st
  | MethodRoute mw constructor key => RouteMiddleware mw constructor key st
  | ClassResource acts mw target => ResourceMiddleware acts mw target st
  end.

(** The method keys an application writes to. *)
Definition targets (d : Decorator) (key : string) : bool :=
  match d with
  | ClassGroup _ target => is_route_method target key
  | MethodRoute _ _ key' => bool_decide (key = key')
  | ClassResource _ _ _ => false
  end.

(** The classes up the prototype chain of a class. *)
Fixpoint superclasses (C : Class) : list Class :=
  match C with
  | BaseClass _ => []
  | Extends _ super => super :: superclasses super
  end.

(** A method a class inherits: not an own property of its prototype, a
    function on the prototype of a superclass. *)
Definition inherited_method (C : Class) (key : string) : bool :=
  bool_decide (key ∉ getOwnPropertyNames (prototype C))
  && existsb (λ D, bool_decide (typeof_prop (prototype D) key = TyFunction))
       (superclasses C).

(** ** Sample controllers *)

Definition UsersController : Class :=
  BaseClass {| class_name := "UsersController";
               class_prototype :=
                 [("constructor", TyFunction); ("index", TyFunction);
                  ("perPage", TyNumber); ("store", TyFunction)] |}.

Definition AdminController : Class :=
  Extends {| class_name := "AdminController";
             class_prototype :=
               [("constructor", TyFunction); ("purge", TyFunction)] |}
          UsersController.

Definition EmptyController : Class :=
  BaseClass {| class_name := "EmptyController";
               class_prototype := [("constructor", TyFunction)] |}.

Definition auth : MiddlewareSpec := More [ParsedNamedMiddleware "auth"].
Definition throttle : MiddlewareSpec := One (MiddlewareFn 1).
Definition logger : MiddlewareSpec :=
  More [ParsedNamedMiddleware "log"; MiddlewareFn 2].

(** [UsersController] after [@RouteMiddleware(throttle)] on [index]. *)
Definition users_throttled : Metadata :=
  RouteMiddleware throttle UsersController "index" no_metadata.

(** The class an application fetches and defines metadata on. *)
Definition decorated_class (d : Decorator) : Class :=
  match d with
  | ClassGroup _ target => target
  | MethodRoute _ constructor _ => constructor
  | ClassResource _ _ target => target
  end.

(** ** Sequences of applications *)

(** The applications of a list, from left to right. *)
Definition decorate_all (ds : list Decorator) (st : Metadata) : Metadata :=
  fold_left (λ st d, decorate d st) ds st.

(** [RouteMiddleware(mw)] applied in turn to each key of a list that passes
    the test of [GroupMiddleware]. *)
Definition route_each (mw : MiddlewareSpec) (C : Class) (keys : list string)
    (st : Metadata) : Metadata :=
  fold_left
    (λ st key, if is_route_method C key then RouteMiddleware mw C key st
               else st) keys st.

(** The record one application of [ResourceMiddleware] appends. *)
Definition record_of (ann : ActionsArg * MiddlewareSpec) : ResourceRecord :=
  {| actions := ann.1; resource_middleware := ann.2 |}.

(** * Properties of the store *)

(** Closed decidable facts about the sample controllers are settled by
    evaluating their decision procedure. *)
Ltac by_computation := apply (bool_decide_unpack _); vm_compute; exact I.

Create HintDb metadata discriminated.

Section store_facts.
Context {A : Type}.
Implicit Types (s : Store A) (C D : Class) (f : A → A) (o : A).

(** What a class reads depends on the table of references only. *)
Lemma getMetadata_ext s s' C :
  own s = own s' → getMetadata s C = getMetadata s' C.
Proof.
  intros Hown. induction C as [d|d super IH]; simpl; rewrite Hown; [done|].
  by rewrite IH.
Qed.

Lemma getMetadata_mutate r f s C :
  getMetadata (mutate r f s) C = getMetadata s C.
Proof. by apply getMetadata_ext. Qed.

Lemma getMetadata_lt s C r :
  wf_store s → getMetadata s C = Some r → r < length (heap s).
Proof.
  intros Hwf. induction C as [d|d super IH]; simpl;
    destruct (own s !! _) as [r'|] eqn:Hown; intros Hr; simplify_eq; eauto.
Qed.

Lemma getMetadata_is_Some s C r :
  wf_store s → getMetadata s C = Some r → is_Some (heap s !! r).
Proof. intros. by eapply lookup_lt_is_Some_2, getMetadata_lt. Qed.

Lemma wf_store_empty : wf_store (@empty_store A).
Proof. apply map_Forall_empty. Qed.

Lemma annotate_wf o f C s : wf_store s → wf_store (annotate o f C s).
Proof.
  intros Hwf. unfold annotate, getMetadata_or, new_object.
  destruct (getMetadata s C) as [r|] eqn:Hget; unfold wf_store; simpl;
    rewrite length_alter; apply map_Forall_insert_2.
  - by eapply getMetadata_lt.
  - done.
  - rewrite length_app. simpl. lia.
  - eapply map_Forall_impl; [exact Hwf|]. simpl. intros _ r Hr.
    rewrite length_app. lia.
Qed.

(** Defining on [C] the reference that [C] already read changes what no
    class reads. *)
Lemma getMetadata_define_same s C r D :
  getMetadata s C = Some r →
  getMetadata (defineMetadata r C s) D = getMetadata s D.
Proof.
  intros Hget. induction D as [d|d super IH]; simpl.
  - destruct (decide (C = BaseClass d)) as [->|Hne].
    + rewrite lookup_insert_eq. simpl in Hget.
      by destruct (own s !! BaseClass d); simplify_eq.
    + by rewrite lookup_insert_ne.
  - destruct (decide (C = Extends d super)) as [->|Hne].
    + rewrite lookup_insert_eq. simpl in Hget.
      by destruct (own s !! Extends d super); simplify_eq.
    + rewrite lookup_insert_ne by done. by rewrite IH.
Qed.

(** Defining a reference on a class [C] that read nothing: every class
    reads what it read before, or read nothing and now reads [r]. *)
Lemma getMetadata_define_new s C r D :
  getMetadata s C = None →
  getMetadata (defineMetadata r C s) D = getMetadata s D
  ∨ (getMetadata s D = None ∧ getMetadata (defineMetadata r C s) D = Some r).
Proof.
  intros Hget. induction D as [d|d super IH]; simpl.
  - destruct (decide (C = BaseClass d)) as [->|Hne].
    + rewrite lookup_insert_eq. simpl in Hget. right.
      by destruct (own s !! BaseClass d).
    + rewrite lookup_insert_ne by done. by left.
  - destruct (decide (C = Extends d super)) as [->|Hne].
    + rewrite lookup_insert_eq. simpl in Hget. right.
      by destruct (own s !! Extends d super).
    + rewrite lookup_insert_ne by done.
      destruct (own s !! Extends d super); [by left|]. exact IH.
Qed.

Lemma getMetadata_define_target s C r :
  getMetadata (defineMetadata r C s) C = Some r.
Proof. destruct C; simpl; by rewrite lookup_insert_eq. Qed.

(** The decorated class reads the mutated object. *)
Lemma object_of_annotate_target o f C s :
  wf_store s →
  object_of (annotate o f C s) C = Some (f (default o (object_of s C))).
Proof.
  intros Hwf. unfold object_of at 1. unfold annotate, getMetadata_or, new_object.
  destruct (getMetadata s C) as [r|] eqn:Hget.
  - rewrite getMetadata_define_target. simpl.
    destruct (getMetadata_is_Some s C r Hwf Hget) as [a Ha].
    rewrite list_lookup_alter_eq, Ha. unfold object_of. rewrite Hget. simpl.
    by rewrite Ha.
  - rewrite getMetadata_define_target. simpl.
    rewrite list_lookup_alter_eq, lookup_app_r, Nat.sub_diag by done.
    unfold object_of. by rewrite Hget.
Qed.

(** Any class reads the object it read before, or that object (the default
    one if it read none) after the mutation. *)
Lemma object_of_annotate o f C s D :
  wf_store s →
  object_of (annotate o f C s) D = object_of s D
  ∨ object_of (annotate o f C s) D = Some (f (default o (object_of s D))).
Proof.
  intros Hwf. unfold annotate, getMetadata_or, new_object.
  destruct (getMetadata s C) as [r|] eqn:Hget.
  - unfold object_of.
    rewrite getMetadata_define_same by (by rewrite getMetadata_mutate).
    rewrite getMetadata_mutate.
    destruct (getMetadata s D) as [r'|] eqn:HD; simpl; [|by left].
    destruct (decide (r = r')) as [<-|Hne].
    + rewrite list_lookup_alter_eq.
      destruct (heap s !! r); simpl; [by right|by left].
    + rewrite list_lookup_alter_ne by done. by left.
  - set (s1 := {| heap := heap s ++ [o]; own := own s |}).
    assert (Hs1 : ∀ E, getMetadata (mutate (length (heap s)) f s1) E
                       = getMetadata s E).
    { intros E. by apply getMetadata_ext. }
    unfold object_of.
    destruct (getMetadata_define_new (mutate (length (heap s)) f s1) C
                (length (heap s)) D) as [->|[HD ->]].
    + by rewrite Hs1.
    + rewrite Hs1.
      destruct (getMetadata s D) as [r'|] eqn:HD; simpl; [|by left].
      pose proof (getMetadata_lt s D r' Hwf HD).
      rewrite list_lookup_alter_ne by lia.
      rewrite lookup_app_l by done. by left.
    + rewrite Hs1 in HD. rewrite HD. simpl.
      rewrite list_lookup_alter_eq, lookup_app_r, Nat.sub_diag by done.
      by right.
Qed.
End store_facts.

(** * Properties of the routes object *)

Section routes_facts.
Implicit Types (routes : Routes) (key k : string) (mw : MiddlewareSpec).

Lemma push_middleware_lookup mw key routes :
  push_middleware mw key routes !! key
  = Some {| middleware := Some (groups routes key ++ [mw]);
            others := default [] (others <$> routes !! key) |}.
Proof.
  unfold push_middleware, groups.
  destruct (routes !! key) as [e|] eqn:He.
  - rewrite lookup_alter_eq, He. simpl. by destruct (middleware e).
  - by rewrite lookup_alter_eq, lookup_insert_eq.
Qed.

Lemma push_middleware_lookup_ne mw key k routes :
  key ≠ k → push_middleware mw key routes !! k = routes !! k.
Proof.
  intros Hne. unfold push_middleware. rewrite lookup_alter_ne by done.
  destruct (routes !! key); [done|]. by rewrite lookup_insert_ne.
Qed.

Lemma groups_push mw key routes :
  groups (push_middleware mw key routes) key = groups routes key ++ [mw].
Proof. unfold groups at 1. by rewrite push_middleware_lookup. Qed.

Lemma groups_push_ne mw key k routes :
  key ≠ k → groups (push_middleware mw key routes) k = groups routes k.
Proof. intros. unfold groups. by rewrite push_middleware_lookup_ne. Qed.

Lemma typeof_prop_own o key :
  typeof_prop o key ≠ TyUndefined → key ∈ getOwnPropertyNames o.
Proof.
  unfold getOwnPropertyNames.
  induction o as [|[k t] o IH]; simpl; [done|].
  destruct (decide (k = key)) as [->|Hne]; intros Ht.
  - apply elem_of_cons. by left.
  - apply elem_of_cons. right. by apply IH.
Qed.

Lemma is_route_method_spec C key :
  is_route_method C key = true
  ↔ key ≠ "constructor" ∧ typeof_prop (prototype C) key = TyFunction.
Proof.
  unfold is_route_method.
  by rewrite andb_true_iff, !bool_decide_eq_true.
Qed.

Lemma is_route_method_own C key :
  is_route_method C key = true → key ∈ getOwnPropertyNames (prototype C).
Proof.
  intros [_ Ht]%is_route_method_spec. apply typeof_prop_own. by rewrite Ht.
Qed.

Lemma group_loop_unfold mw C routes :
  group_loop mw C routes
  = loop_over mw C (getOwnPropertyNames (prototype C)) routes.
Proof. done. Qed.

Lemma loop_over_skip mw C keys routes k :
  k ∉ keys ∨ is_route_method C k = false →
  loop_over mw C keys routes !! k = routes !! k.
Proof.
  revert routes. induction keys as [|a keys IH]; intros routes Hk; [done|].
  simpl. rewrite IH.
  - destruct (is_route_method C a) eqn:Ha; [|done].
    apply push_middleware_lookup_ne. intros ->.
    destruct Hk as [Hk|Hk]; [|congruence].
    apply Hk, elem_of_cons. by left.
  - destruct Hk as [Hk|Hk]; [left|by right].
    intros Hin. apply Hk, elem_of_cons. by right.
Qed.

Lemma loop_over_hit mw C keys routes k :
  NoDup keys → k ∈ keys → is_route_method C k = true →
  loop_over mw C keys routes !! k = push_middleware mw k routes !! k.
Proof.
  revert routes. induction keys as [|a keys IH]; intros routes Hnd Hin Hk.
  - by apply elem_of_nil in Hin.
  - apply NoDup_cons in Hnd as [Ha Hnd]. simpl.
    destruct (decide (a = k)) as [->|Hne].
    + rewrite Hk. apply loop_over_skip. by left.
    + apply elem_of_cons in Hin as [->|Hin]; [done|].
      rewrite IH by done. rewrite !push_middleware_lookup.
      destruct (is_route_method C a); [|done].
      by rewrite groups_push_ne, push_middleware_lookup_ne.
Qed.

(** Whatever the keys, the loop only appends copies of [mw]. *)
Lemma loop_over_groups mw C keys routes k :
  ∃ n, groups (loop_over mw C keys routes) k
       = groups routes k ++ replicate n mw.
Proof.
  revert routes. induction keys as [|a keys IH]; intros routes.
  - exists 0. by rewrite app_nil_r.
  - simpl. destruct (IH (if is_route_method C a
                         then push_middleware mw a routes else routes))
      as [n Hn].
    rewrite Hn. destruct (is_route_method C a); [|by exists n].
    destruct (decide (a = k)) as [->|Hne].
    + exists (S n). by rewrite groups_push, <- app_assoc.
    + exists n. by rewrite groups_push_ne.
Qed.

Lemma group_loop_lookup mw C routes k :
  NoDup (getOwnPropertyNames (prototype C)) →
  group_loop mw C routes !! k
  = if is_route_method C k then push_middleware mw k routes !! k
    else routes !! k.
Proof.
  intros Hnd. rewrite group_loop_unfold.
  destruct (is_route_method C k) eqn:Hk.
  - apply loop_over_hit; [done| |done]. by apply is_route_method_own.
  - apply loop_over_skip. by right.
Qed.

Lemma group_loop_skip mw C routes k :
  is_route_method C k = false → group_loop mw C routes !! k = routes !! k.
Proof. intros. rewrite group_loop_unfold. apply loop_over_skip. by right. Qed.

Lemma group_loop_groups mw C routes k :
  NoDup (getOwnPropertyNames (prototype C)) → is_route_method C k = true →
  groups (group_loop mw C routes) k = groups routes k ++ [mw].
Proof.
  intros Hnd Hk. unfold groups at 1.
  by rewrite group_loop_lookup, Hk, push_middleware_lookup.
Qed.

Lemma group_loop_prefix mw C routes k :
  groups routes k `prefix_of` groups (group_loop mw C routes) k.
Proof.
  rewrite group_loop_unfold.
  destruct (loop_over_groups mw C (getOwnPropertyNames (prototype C)) routes k)
    as [n ->].
  by apply prefix_app_r.
Qed.

Lemma push_middleware_prefix mw key routes k :
  groups routes k `prefix_of` groups (push_middleware mw key routes) k.
Proof.
  destruct (decide (key = k)) as [->|Hne].
  - rewrite groups_push. by apply prefix_app_r.
  - by rewrite groups_push_ne.
Qed.
End routes_facts.

(** * The decorators as annotations of a store *)

Section decorator_facts.
Implicit Types (st : Metadata) (C D : Class) (mw : MiddlewareSpec).

Lemma GroupMiddleware_routes mw C st :
  REFLECT_ROUTES_KEY (GroupMiddleware mw C st)
  = annotate ∅ (group_loop mw C) C (REFLECT_ROUTES_KEY st).
Proof.
  unfold GroupMiddleware, annotate. by destruct (getMetadata_or _ _ _).
Qed.

Lemma GroupMiddleware_resource mw C st :
  REFLECT_RESOURCE_MIDDLEWARE_KEY (GroupMiddleware mw C st)
  = REFLECT_RESOURCE_MIDDLEWARE_KEY st.
Proof. unfold GroupMiddleware. by destruct (getMetadata_or _ _ _). Qed.

Lemma RouteMiddleware_routes mw C key st :
  REFLECT_ROUTES_KEY (RouteMiddleware mw C key st)
  = annotate ∅ (push_middleware mw key) C (REFLECT_ROUTES_KEY st).
Proof.
  unfold RouteMiddleware, annotate. by destruct (getMetadata_or _ _ _).
Qed.

Lemma RouteMiddleware_resource mw C key st :
  REFLECT_RESOURCE_MIDDLEWARE_KEY (RouteMiddleware mw C key st)
  = REFLECT_RESOURCE_MIDDLEWARE_KEY st.
Proof. unfold RouteMiddleware. by destruct (getMetadata_or _ _ _). Qed.

Lemma ResourceMiddleware_resource acts mw C st :
  REFLECT_RESOURCE_MIDDLEWARE_KEY (ResourceMiddleware acts mw C st)
  = annotate []
      (λ l, l ++ [{| actions := acts; resource_middleware := mw |}]) C
      (REFLECT_RESOURCE_MIDDLEWARE_KEY st).
Proof.
  unfold ResourceMiddleware, annotate. by destruct (getMetadata_or _ _ _).
Qed.

Lemma ResourceMiddleware_routes acts mw C st :
  REFLECT_ROUTES_KEY (ResourceMiddleware acts mw C st) = REFLECT_ROUTES_KEY st.
Proof. unfold ResourceMiddleware. by destruct (getMetadata_or _ _ _). Qed.

Lemma GroupMiddleware_wf mw C st : wf st → wf (GroupMiddleware mw C st).
Proof.
  intros [Hr Hres]. split.
  - rewrite GroupMiddleware_routes. by apply annotate_wf.
  - by rewrite GroupMiddleware_resource.
Qed.

Lemma RouteMiddleware_wf mw C key st : wf st → wf (RouteMiddleware mw C key st).
Proof.
  intros [Hr Hres]. split.
  - rewrite RouteMiddleware_routes. by apply annotate_wf.
  - by rewrite RouteMiddleware_resource.
Qed.

Lemma ResourceMiddleware_wf acts mw C st :
  wf st → wf (ResourceMiddleware acts mw C st).
Proof.
  intros [Hr Hres]. split.
  - by rewrite ResourceMiddleware_routes.
  - rewrite ResourceMiddleware_resource. by apply annotate_wf.
Qed.

Lemma no_metadata_wf : wf no_metadata.
Proof. split; apply wf_store_empty. Qed.

(** Reading through an absent routes object is reading through [{}]. *)
Lemma entry_of_default st C k :
  entry_of st C k = default ∅ (routes_of st C) !! k.
Proof. unfold entry_of. by destruct (routes_of st C). Qed.

Lemma middleware_list_groups st C k :
  middleware_list st C k = groups (default ∅ (routes_of st C)) k.
Proof.
  unfold middleware_list, middleware_of, groups. by rewrite entry_of_default.
Qed.

Lemma middleware_of_Some st C k e l :
  entry_of st C k = Some e → middleware e = Some l →
  middleware_of st C k = Some l.
Proof. unfold middleware_of. by intros -> <-. Qed.

(** A decorator that annotates the routes store with [f] shows every class
    its former routes object, or that object after [f]. *)
Lemma routes_of_annotated (f : Routes → Routes) C st st' D :
  wf st →
  REFLECT_ROUTES_KEY st' = annotate ∅ f C (REFLECT_ROUTES_KEY st) →
  routes_of st' D = routes_of st D
  ∨ routes_of st' D = Some (f (default ∅ (routes_of st D))).
Proof.
  intros [Hwf _] Heq. unfold routes_of. rewrite Heq.
  by apply object_of_annotate.
Qed.

Lemma routes_of_annotated_target (f : Routes → Routes) C st st' :
  wf st →
  REFLECT_ROUTES_KEY st' = annotate ∅ f C (REFLECT_ROUTES_KEY st) →
  routes_of st' C = Some (f (default ∅ (routes_of st C))).
Proof.
  intros [Hwf _] Heq. unfold routes_of. rewrite Heq.
  by apply object_of_annotate_target.
Qed.

Lemma entry_of_annotated (f : Routes → Routes) C st st' D k :
  wf st →
  REFLECT_ROUTES_KEY st' = annotate ∅ f C (REFLECT_ROUTES_KEY st) →
  (∀ routes, f routes !! k = routes !! k) →
  entry_of st' D k = entry_of st D k.
Proof.
  intros Hwf Heq Hf. rewrite !entry_of_default.
  destruct (routes_of_annotated f C st st' D Hwf Heq) as [->| ->]; [done|].
  simpl. apply Hf.
Qed.

Lemma middleware_list_annotated (f : Routes → Routes) C st st' D k :
  wf st →
  REFLECT_ROUTES_KEY st' = annotate ∅ f C (REFLECT_ROUTES_KEY st) →
  (∀ routes, groups routes k `prefix_of` groups (f routes) k) →
  middleware_list st D k `prefix_of` middleware_list st' D k.
Proof.
  intros Hwf Heq Hf. rewrite !middleware_list_groups.
  destruct (routes_of_annotated f C st st' D Hwf Heq) as [->| ->]; [done|].
  simpl. apply Hf.
Qed.

Lemma middleware_of_annotated_target (f : Routes → Routes) C st st' k l :
  wf st →
  REFLECT_ROUTES_KEY st' = annotate ∅ f C (REFLECT_ROUTES_KEY st) →
  (∀ routes, ∃ e, f routes !! k = Some e
                  ∧ middleware e = Some (groups routes k ++ l)) →
  middleware_of st' C k = Some (middleware_list st C k ++ l).
Proof.
  intros Hwf Heq Hf. rewrite middleware_list_groups.
  destruct (Hf (default ∅ (routes_of st C))) as (e & He & Hmw).
  apply (middleware_of_Some _ _ _ e); [|done].
  rewrite entry_of_default.
  by rewrite (routes_of_annotated_target f C st st' Hwf Heq).
Qed.

Lemma resource_of_ResourceMiddleware acts mw C st :
  wf st →
  resource_of (ResourceMiddleware acts mw C st) C
  = Some (resource_list st C
          ++ [{| actions := acts; resource_middleware := mw |}]).
Proof.
  intros [_ Hwf]. unfold resource_of. rewrite ResourceMiddleware_resource.
  by rewrite object_of_annotate_target.
Qed.

Lemma middleware_list_of st C k l :
  middleware_of st C k = Some l → middleware_list st C k = l.
Proof. unfold middleware_list. by intros ->. Qed.

Lemma middleware_of_RouteMiddleware mw C key st :
  wf st →
  middleware_of (RouteMiddleware mw C key st) C key
  = Some (middleware_list st C key ++ [mw]).
Proof.
  intros Hwf.
  apply (middleware_of_annotated_target (push_middleware mw key));
    [done|apply RouteMiddleware_routes|].
  intros routes. eexists. by rewrite push_middleware_lookup.
Qed.

Lemma middleware_of_GroupMiddleware mw C key st :
  wf st → NoDup (getOwnPropertyNames (prototype C)) →
  is_route_method C key = true →
  middleware_of (GroupMiddleware mw C st) C key
  = Some (middleware_list st C key ++ [mw]).
Proof.
  intros Hwf Hnd Hk.
  apply (middleware_of_annotated_target (group_loop mw C));
    [done|apply GroupMiddleware_routes|].
  intros routes. eexists.
  by rewrite group_loop_lookup, Hk, push_middleware_lookup.
Qed.

Lemma entry_of_GroupMiddleware_skip mw C st D k :
  wf st → is_route_method C k = false →
  entry_of (GroupMiddleware mw C st) D k = entry_of st D k.
Proof.
  intros Hwf Hk.
  apply (entry_of_annotated (group_loop mw C) C);
    [done|apply GroupMiddleware_routes|].
  intros routes. by apply group_loop_skip.
Qed.

Lemma entry_of_RouteMiddleware_ne mw C key st D k :
  wf st → key ≠ k →
  entry_of (RouteMiddleware mw C key st) D k = entry_of st D k.
Proof.
  intros Hwf Hk.
  apply (entry_of_annotated (push_middleware mw key) C);
    [done|apply RouteMiddleware_routes|].
  intros routes. by apply push_middleware_lookup_ne.
Qed.

Lemma resource_list_annotated acts mw C st D :
  wf st →
  resource_list st D
    `prefix_of` resource_list (ResourceMiddleware acts mw C st) D.
Proof.
  intros [_ Hwf]. unfold resource_list, resource_of.
  rewrite ResourceMiddleware_resource.
  destruct (object_of_annotate []
              (λ l, l ++ [{| actions := acts; resource_middleware := mw |}])
              C (REFLECT_RESOURCE_MIDDLEWARE_KEY st) D Hwf) as [->| ->];
    [done|].
  simpl. by apply prefix_app_r.
Qed.

Lemma inherited_method_not_route C k :
  inherited_method C k = true → is_route_method C k = false.
Proof.
  unfold inherited_method. intros [Hown _]%andb_true_iff.
  apply bool_decide_eq_true in Hown.
  destruct (is_route_method C k) eqn:Hk; [|done].
  by apply is_route_method_own in Hk.
Qed.

(** The routes object is shared along the prototype chain: decorating
    [AdminController], which has no route metadata of its own, mutates the
    object [UsersController] holds, and both classes read the same object
    afterwards. *)
Example subclass_shares_routes_object :
  let st := GroupMiddleware auth AdminController users_throttled in
  routes_of st UsersController = routes_of st AdminController
  ∧ middleware_of users_throttled UsersController "purge" = None
  ∧ middleware_of st UsersController "purge" = Some [auth]
  ∧ middleware_of st UsersController "index" = Some [throttle].
Proof. by vm_compute. Qed.
End decorator_facts.

#[local] Hint Resolve GroupMiddleware_wf RouteMiddleware_wf
  ResourceMiddleware_wf no_metadata_wf : metadata.

(** * The claims of the specification *)







(** C4: on a controller without prior resource metadata, two applications
    of [ResourceMiddleware] leave exactly two records, in the order of the
    applications, whatever the two action arguments are: overlapping or
    equal action sets are neither merged nor deduplicated. *)
Theorem ResourceMiddleware_keeps_both_records a1 S1 a2 S2 C st :
  wf st →
  resource_of st C = None →
  resource_of (ResourceMiddleware a2 S2 C (ResourceMiddleware a1 S1 C st)) C
  = Some [ {| actions := a1; resource_middleware := S1 |};
           {| actions := a2; resource_middleware := S2 |} ].
Proof.
  intros Hwf Hnone.
  rewrite resource_of_ResourceMiddleware by eauto with metadata.
  unfold resource_list at 1.
  rewrite resource_of_ResourceMiddleware by done.
  unfold resource_list. by rewrite Hnone.
Qed.

Lemma ResourceMiddleware_keeps_both_records_witness :
  resource_of
    (ResourceMiddleware (ActionsArray ["store"; "update"]) logger UsersController
       (ResourceMiddleware (ActionsArray ["store"]) auth UsersController
          users_throttled))
    UsersController
  = Some [ {| actions := ActionsArray ["store"];
              resource_middleware := auth |};
           {| actions := ActionsArray ["store"; "update"];
              resource_middleware := logger |} ].
Proof.
  apply ResourceMiddleware_keeps_both_records.
  - by_computation.
  - reflexivity.
Defined.











(** C9: [ResourceMiddleware] returns for every actions argument, names
    outside any legal action set included: the result is a well-formed
    store in which the decorated class reads its prior records followed by
    one record whose [actions] is the argument as passed. *)
Theorem ResourceMiddleware_accepts_any_actions acts mw C st :
  wf st →
  ∃ st', ResourceMiddleware acts mw C st = st'
         ∧ wf st'
         ∧ resource_of st' C
           = Some (resource_list st C
                   ++ [{| actions := acts; resource_middleware := mw |}])
         ∧ actions <$> last (resource_list st' C) = Some acts.
Proof.
  intros Hwf. eexists. split; [reflexivity|].
  split; [eauto with metadata|].
  pose proof (resource_of_ResourceMiddleware acts mw C st Hwf) as Hres.
  split; [done|].
  unfold resource_list at 1. rewrite Hres. simpl. by rewrite last_snoc.
Qed.

Lemma ResourceMiddleware_accepts_any_actions_witness :
  ∃ st',
    ResourceMiddleware (ActionsArray ["stroe"; "no-such-action"]) auth
      UsersController users_throttled = st'
    ∧ wf st'
    ∧ resource_of st' UsersController
      = Some (resource_list users_throttled UsersController
              ++ [{| actions := ActionsArray ["stroe"; "no-such-action"];
                     resource_middleware := auth |}])
    ∧ actions <$> last (resource_list st' UsersController)
      = Some (ActionsArray ["stroe"; "no-such-action"]).
Proof.
  apply ResourceMiddleware_accepts_any_actions.
  by_computation.
Defined.



(** * Further properties of the decorators *)

(** ** Composition of annotations on one store *)

Section store_composition.
Context {A : Type}.
Implicit Types (s : Store A) (C D : Class) (f g : A → A) (o : A).

Lemma getMetadata_own s C r : own s !! C = Some r → getMetadata s C = Some r.
Proof. intros Hown. destruct C; simpl; by rewrite Hown. Qed.

Lemma annotate_Some o f C s r :
  getMetadata s C = Some r →
  annotate o f C s
  = {| heap := alter f r (heap s); own := <[C := r]> (own s) |}.
Proof. intros Hget. unfold annotate, getMetadata_or. by rewrite Hget. Qed.

Lemma annotate_None o f C s :
  getMetadata s C = None →
  annotate o f C s
  = {| heap := alter f (length (heap s)) (heap s ++ [o]);
       own := <[C := length (heap s)]> (own s) |}.
Proof. intros Hget. unfold annotate, getMetadata_or. by rewrite Hget. Qed.

Lemma annotate_ext o f g C s :
  (∀ x, f x = g x) → annotate o f C s = annotate o g C s.
Proof.
  intros Hfg. destruct (getMetadata s C) as [r|] eqn:Hget.
  - rewrite !(annotate_Some _ _ _ _ r) by done. f_equal.
    apply list_alter_ext; auto.
  - rewrite !annotate_None by done. f_equal.
    apply list_alter_ext; auto.
Qed.

(** Two annotations of the same class act on the same object. *)
Lemma annotate_annotate o f g C s :
  annotate o g C (annotate o f C s) = annotate o (g ∘ f) C s.
Proof.
  destruct (getMetadata s C) as [r|] eqn:Hget.
  - rewrite (annotate_Some o f C s r), (annotate_Some o (g ∘ f) C s r) by done.
    rewrite (annotate_Some o g C _ r)
      by (apply getMetadata_own; simpl; apply lookup_insert_eq).
    simpl. by rewrite list_alter_alter_eq, insert_insert_eq.
  - rewrite (annotate_None o f C s), (annotate_None o (g ∘ f) C s) by done.
    rewrite (annotate_Some o g C _ (length (heap s)))
      by (apply getMetadata_own; simpl; apply lookup_insert_eq).
    simpl. by rewrite list_alter_alter_eq, insert_insert_eq.
Qed.

(** A class that reads the object of the annotated class reads it after
    the mutation. *)
Lemma object_of_annotate_shared o f C s D r :
  getMetadata s C = Some r → getMetadata s D = Some r →
  object_of (annotate o f C s) D = f <$> object_of s D.
Proof.
  intros HC HD. unfold annotate, getMetadata_or, object_of. rewrite HC.
  rewrite getMetadata_define_same by (by rewrite getMetadata_mutate).
  rewrite getMetadata_mutate, HD. simpl. apply list_lookup_alter_eq.
Qed.

(** A class that reads another object keeps reading it, unchanged. *)
Lemma object_of_annotate_apart o f C s D r :
  wf_store s →
  getMetadata s D = Some r → getMetadata s C ≠ Some r →
  object_of (annotate o f C s) D = object_of s D.
Proof.
  intros Hwf HD Hne. pose proof (getMetadata_lt s D r Hwf HD) as Hlt.
  destruct (getMetadata s C) as [r'|] eqn:HC.
  - rewrite (annotate_Some o f C s r') by done. unfold object_of.
    change {| heap := alter f r' (heap s); own := <[C:=r']> (own s) |}
      with (defineMetadata r' C (mutate r' f s)).
    rewrite getMetadata_define_same by (by rewrite getMetadata_mutate).
    rewrite getMetadata_mutate, HD. simpl.
    apply list_lookup_alter_ne. congruence.
  - rewrite annotate_None by done. unfold object_of.
    set (s1 := {| heap := heap s ++ [o]; own := own s |}).
    change {| heap := alter f (length (heap s)) (heap s ++ [o]);
              own := <[C:=length (heap s)]> (own s) |}
      with (defineMetadata (length (heap s)) C
              (mutate (length (heap s)) f s1)).
    assert (Hs1 : ∀ E, getMetadata (mutate (length (heap s)) f s1) E
                       = getMetadata s E).
    { intros E. by apply getMetadata_ext. }
    destruct (getMetadata_define_new (mutate (length (heap s)) f s1) C
                (length (heap s)) D) as [->|[HD' _]].
    + by rewrite Hs1.
    + rewrite Hs1, HD. simpl.
      rewrite list_lookup_alter_ne by lia. by apply lookup_app_l.
    + rewrite Hs1 in HD'. congruence.
Qed.
End store_composition.

(** ** The decorators compose as annotations *)

Section composition.
Implicit Types (st : Metadata) (C D : Class) (mw : MiddlewareSpec).

Lemma Metadata_eq st st' :
  REFLECT_ROUTES_KEY st = REFLECT_ROUTES_KEY st' →
  REFLECT_RESOURCE_MIDDLEWARE_KEY st = REFLECT_RESOURCE_MIDDLEWARE_KEY st' →
  st = st'.
Proof. destruct st, st'. simpl. by intros -> ->. Qed.

Lemma push_middleware_comm mw1 mw2 k1 k2 (routes : Routes) :
  k1 ≠ k2 →
  push_middleware mw1 k1 (push_middleware mw2 k2 routes)
  = push_middleware mw2 k2 (push_middleware mw1 k1 routes).
Proof.
  intros Hne. apply map_eq. intros k.
  destruct (decide (k = k1)) as [->|Hk1].
  - rewrite (push_middleware_lookup_ne mw2 k2 k1
               (push_middleware mw1 k1 routes)) by done.
    rewrite !push_middleware_lookup.
    by rewrite groups_push_ne, push_middleware_lookup_ne.
  - rewrite (push_middleware_lookup_ne mw1 k1 k
               (push_middleware mw2 k2 routes)) by done.
    destruct (decide (k = k2)) as [->|Hk2].
    + rewrite !push_middleware_lookup.
      by rewrite groups_push_ne, push_middleware_lookup_ne.
    + rewrite !(push_middleware_lookup_ne mw2 k2 k) by done.
      by rewrite push_middleware_lookup_ne.
Qed.

Lemma route_each_cons mw C k keys st :
  route_each mw C (k :: keys) st
  = route_each mw C keys
      (if is_route_method C k then RouteMiddleware mw C k st else st).
Proof. done. Qed.

Lemma loop_over_cons mw C k keys (routes : Routes) :
  loop_over mw C (k :: keys) routes
  = loop_over mw C keys
      (if is_route_method C k then push_middleware mw k routes else routes).
Proof. done. Qed.

(** Route applications after a first annotation of the class fold into
    it. *)
Lemma route_each_annotated mw C keys (f : Routes → Routes) st st' :
  REFLECT_ROUTES_KEY st' = annotate ∅ f C (REFLECT_ROUTES_KEY st) →
  REFLECT_RESOURCE_MIDDLEWARE_KEY st' = REFLECT_RESOURCE_MIDDLEWARE_KEY st →
  REFLECT_ROUTES_KEY (route_each mw C keys st')
  = annotate ∅ (λ routes, loop_over mw C keys (f routes)) C
      (REFLECT_ROUTES_KEY st)
  ∧ REFLECT_RESOURCE_MIDDLEWARE_KEY (route_each mw C keys st')
    = REFLECT_RESOURCE_MIDDLEWARE_KEY st.
Proof.
  revert f st'. induction keys as [|k keys IH]; intros f st' Hr Hres.
  - simpl. split; [|done]. rewrite Hr. by apply annotate_ext.
  - rewrite route_each_cons. destruct (is_route_method C k) eqn:Hk.
    + destruct (IH (λ routes, push_middleware mw k (f routes))
                  (RouteMiddleware mw C k st')) as [IHr IHres].
      * rewrite RouteMiddleware_routes, Hr. apply annotate_annotate.
      * by rewrite RouteMiddleware_resource.
      * split; [|done]. rewrite IHr.
        apply annotate_ext. intros routes.
        by rewrite loop_over_cons, Hk.
    + destruct (IH f st' Hr Hres) as [IHr IHres].
      split; [|done]. rewrite IHr.
      apply annotate_ext. intros routes. by rewrite loop_over_cons, Hk.
Qed.

Lemma route_each_routes mw C keys st :
  (∃ k, k ∈ keys ∧ is_route_method C k = true) →
  REFLECT_ROUTES_KEY (route_each mw C keys st)
  = annotate ∅ (loop_over mw C keys) C (REFLECT_ROUTES_KEY st)
  ∧ REFLECT_RESOURCE_MIDDLEWARE_KEY (route_each mw C keys st)
    = REFLECT_RESOURCE_MIDDLEWARE_KEY st.
Proof.
  induction keys as [|k keys IH]; intros (k' & Hin & Hk').
  - by apply elem_of_nil in Hin.
  - rewrite route_each_cons. destruct (is_route_method C k) eqn:Hk.
    + destruct (route_each_annotated mw C keys (push_middleware mw k) st
                  (RouteMiddleware mw C k st)) as [Hr Hres].
      * apply RouteMiddleware_routes.
      * apply RouteMiddleware_resource.
      * split; [|done]. rewrite Hr.
        apply annotate_ext. intros routes. by rewrite loop_over_cons, Hk.
    + apply elem_of_cons in Hin as [->|Hin]; [congruence|].
      destruct IH as [IHr IHres]; [by exists k'|].
      split; [|done]. rewrite IHr.
      apply annotate_ext. intros routes. by rewrite loop_over_cons, Hk.
Qed.
End composition.





Section accumulation.
Implicit Types (st : Metadata) (C D : Class) (mw : MiddlewareSpec).

Lemma decorate_wf d st : wf st → wf (decorate d st).
Proof. destruct d; simpl; eauto with metadata. Qed.

Lemma decorate_all_wf ds st : wf st → wf (decorate_all ds st).
Proof.
  revert st. induction ds as [|d ds IH]; intros st Hwf; [done|].
  simpl. by apply IH, decorate_wf.
Qed.

Lemma loop_over_is_Some mw C keys (routes : Routes) k :
  is_Some (loop_over mw C keys routes !! k)
  ↔ is_Some (routes !! k) ∨ (k ∈ keys ∧ is_route_method C k = true).
Proof.
  revert routes. induction keys as [|a keys IH]; intros routes.
  - simpl. split; [by left|]. intros [?|[Hin _]]; [done|].
    by apply elem_of_nil in Hin.
  - rewrite loop_over_cons, IH. rewrite elem_of_cons.
    destruct (is_route_method C a) eqn:Ha.
    + destruct (decide (a = k)) as [->|Hne].
      * rewrite push_middleware_lookup. split; [|by eauto].
        intros _. right. by split; [left|].
      * rewrite push_middleware_lookup_ne by done.
        split; (intros [?|[Hin ?]]; [by left|right; split; [|done]]).
        -- by right.
        -- by destruct Hin as [->|?].
    + split; (intros [?|[Hin ?]]; [by left|right; split; [|done]]).
      * by right.
      * destruct Hin as [->|?]; [congruence|done].
Qed.

Lemma loop_over_others mw C keys (routes : Routes) k e :
  routes !! k = Some e →
  ∃ e', loop_over mw C keys routes !! k = Some e' ∧ others e' = others e.
Proof.
  revert routes e. induction keys as [|a keys IH]; intros routes e He.
  - by exists e.
  - rewrite loop_over_cons. destruct (is_route_method C a); [|by apply IH].
    destruct (decide (a = k)) as [->|Hne].
    + destruct (IH (push_middleware mw k routes)
                  {| middleware := Some (groups routes k ++ [mw]);
                     others := others e |}) as (e' & He' & Ho).
      * by rewrite push_middleware_lookup, He.
      * by exists e'.
    + apply IH. by rewrite push_middleware_lookup_ne.
Qed.

Lemma push_middleware_others mw key (routes : Routes) k e :
  routes !! k = Some e →
  ∃ e', push_middleware mw key routes !! k = Some e' ∧ others e' = others e.
Proof.
  intros He. destruct (decide (key = k)) as [->|Hne].
  - rewrite push_middleware_lookup, He. by eexists.
  - rewrite push_middleware_lookup_ne by done. by exists e.
Qed.

Lemma entry_of_annotated_others (f : Routes → Routes) C st st' D k e :
  wf st →
  REFLECT_ROUTES_KEY st' = annotate ∅ f C (REFLECT_ROUTES_KEY st) →
  (∀ routes e, routes !! k = Some e →
               ∃ e', f routes !! k = Some e' ∧ others e' = others e) →
  entry_of st D k = Some e →
  ∃ e', entry_of st' D k = Some e' ∧ others e' = others e.
Proof.
  intros Hwf Heq Hf He. rewrite entry_of_default in He.
  rewrite entry_of_default.
  destruct (routes_of_annotated f C st st' D Hwf Heq) as [->| ->].
  - by exists e.
  - simpl. by apply Hf.
Qed.
End accumulation.



(** X4: successive applications of [ResourceMiddleware] to one class
    accumulate: the resource records afterwards are the prior records
    followed by one record per application, in the order of the
    applications. *)
Theorem ResourceMiddleware_accumulates anns C st :
  wf st →
  resource_list
    (decorate_all (map (λ ann, ClassResource ann.1 ann.2 C) anns) st) C
  = resource_list st C ++ map record_of anns.
Proof.
  revert st. induction anns as [|[acts mw] anns IH]; intros st Hwf.
  - by rewrite app_nil_r.
  - simpl. unfold decorate_all in IH. rewrite IH by eauto with metadata.
    unfold resource_list at 1.
    rewrite resource_of_ResourceMiddleware by done. simpl.
    by rewrite <- app_assoc.
Qed.

Lemma ResourceMiddleware_accumulates_witness :
  resource_list
    (decorate_all
       (map (λ ann, ClassResource ann.1 ann.2 UsersController)
          [(wildcard, auth); (ActionsArray ["store"], logger);
           (wildcard, auth)]) users_throttled)
    UsersController
  = resource_list users_throttled UsersController
    ++ map record_of
         [(wildcard, auth); (ActionsArray ["store"], logger);
          (wildcard, auth)].
Proof. apply ResourceMiddleware_accumulates. by_computation. Defined.







Section sharing.
Implicit Types (st : Metadata) (C D : Class) (mw : MiddlewareSpec).

(** A subclass without a reference of its own reads what its superclass
    reads. *)
Lemma getMetadata_inherited {A} (s : Store A) d super :
  own s !! Extends d super = None →
  getMetadata s (Extends d super) = getMetadata s super.
Proof. intros Hown. simpl. by rewrite Hown. Qed.

Lemma object_of_annotate_superclass {A} (o : A) (f : A → A) (s : Store A)
    d super a :
  own s !! Extends d super = None →
  object_of s super = Some a →
  object_of (annotate o f (Extends d super) s) super = Some (f a).
Proof.
  intros Hown Ha. unfold object_of in Ha.
  destruct (getMetadata s super) as [r|] eqn:Hsuper; [|done].
  rewrite (object_of_annotate_shared o f (Extends d super) s super r);
    [|by rewrite getMetadata_inherited|done].
  unfold object_of. rewrite Hsuper. simpl in *. by rewrite Ha.
Qed.
End sharing.



(** X9: [ResourceMiddleware] on a subclass that has no resource metadata of
    its own, under a superclass that has some, appends the record to the
    list of the superclass: the superclass reads its prior records followed
    by the record of the subclass. *)
Theorem subclass_resource_writes_superclass acts mw d super st :
  own (REFLECT_RESOURCE_MIDDLEWARE_KEY st) !! Extends d super = None →
  is_Some (resource_of st super) →
  resource_of (ResourceMiddleware acts mw (Extends d super) st) super
  = Some (resource_list st super
          ++ [{| actions := acts; resource_middleware := mw |}]).
Proof.
  intros Hown [l Hl]. unfold resource_list. rewrite Hl. simpl.
  unfold resource_of in *. rewrite ResourceMiddleware_resource.
  by rewrite (object_of_annotate_superclass _ _ _ _ _ l).
Qed.

Lemma subclass_resource_writes_superclass_witness :
  resource_of
    (ResourceMiddleware (ActionsArray ["destroy"]) logger AdminController
       (ResourceMiddleware wildcard auth UsersController no_metadata))
    UsersController
  = Some (resource_list
            (ResourceMiddleware wildcard auth UsersController no_metadata)
            UsersController
          ++ [{| actions := ActionsArray ["destroy"];
                 resource_middleware := logger |}]).
Proof.
  apply (subclass_resource_writes_superclass (ActionsArray ["destroy"]) logger
           {| class_name := "AdminController";
              class_prototype :=
                [("constructor", TyFunction); ("purge", TyFunction)] |}
           UsersController).
  - reflexivity.
  - by_computation.
Defined.






